(** * YouTube-subtitle: the transcript-to-subtitle pipeline of the two
    Express servers ([src/sever/server.js], route [/api/generate], and the
    server in [src/unnamed/part_000], route [/api/subtitles]).

    JavaScript strings are modelled as [list ascii] (one code unit per
    character; only the ASCII part of the JavaScript whitespace class is
    represented).  External collaborators (caption scraper, ytdl metadata,
    Gemini, [Intl.DisplayNames]) are inputs of the handlers: their outcome
    is a parameter, and each network call the handler issues is recorded
    in a trace of events. *)

From Stdlib Require Import List Ascii String ZArith Lia.
Import ListNotations.
Open Scope list_scope.

(** ** JavaScript strings *)

Definition jsstr := list ascii.

Definition lit (s : string) : jsstr := list_ascii_of_string s.

(** The characters of the class [\s] (and of [String.prototype.trim])
    that fit in one byte: TAB, LF, VT, FF, CR, SPACE. *)
Definition is_ws (c : ascii) : bool :=
  let n := nat_of_ascii c in
  (Nat.eqb n 32 || (Nat.leb 9 n && Nat.leb n 13))%bool.

Definition backtick : ascii := "`"%char.

(** [s.startsWith(p)] *)
Fixpoint starts_with (p s : jsstr) : bool :=
  match p, s with
  | [], _ => true
  | a :: p', b :: s' => Ascii.eqb a b && starts_with p' s'
  | _ :: _, [] => false
  end.

(** [s.replace(/pat/g, '')] for a literal, non-empty pattern: the regular
    expression engine scans left to right and removes non-overlapping
    matches.  [fuel] bounds the scan; [length s + 1] is always enough. *)
Fixpoint remove_all_fuel (fuel : nat) (pat s : jsstr) : jsstr :=
  match fuel with
  | O => s
  | S f =>
      match s with
      | [] => []
      | c :: s' =>
          if starts_with pat s
          then remove_all_fuel f pat (skipn (List.length pat) s)
          else c :: remove_all_fuel f pat s'
      end
  end.

Definition remove_all (pat s : jsstr) : jsstr :=
  remove_all_fuel (S (List.length s)) pat s.

(** [s.trimStart()] and [s.trim()] *)
Fixpoint trim_start (s : jsstr) : jsstr :=
  match s with
  | [] => []
  | c :: s' => if is_ws c then trim_start s' else s
  end.

Definition trim (s : jsstr) : jsstr := rev (trim_start (rev (trim_start s))).

(** ** The repair step of [/api/generate] (server.js, lines 79-82)
<<
vttContent = vttContent.replace(/```vtt\n/g, '').replace(/```/g, '').trim();
if (!vttContent.startsWith('WEBVTT')) {
    vttContent = 'WEBVTT\n\n' + vttContent;
}
>> *)

Definition fence_vtt : jsstr := lit ("```vtt" ++ String (ascii_of_nat 10) EmptyString)%string.
Definition fence : jsstr := lit "```".
Definition webvtt : jsstr := lit "WEBVTT".
Definition nl : ascii := ascii_of_nat 10.
Definition webvtt_header : jsstr := webvtt ++ [nl; nl].

Definition clean_vtt (vttContent : jsstr) : jsstr :=
  trim (remove_all fence (remove_all fence_vtt vttContent)).

Definition repair_vtt (vttContent : jsstr) : jsstr :=
  let v := clean_vtt vttContent in
  if starts_with webvtt v then v else webvtt_header ++ v.

(** [infix p s]: [p] occurs in [s] as a substring. *)
Definition infix (p s : jsstr) : Prop := exists l r, s = l ++ p ++ r.

Definition two_bt : jsstr := [backtick; backtick].

(** ** Array and string helpers used by the handlers *)

(** [arr.join(sep)] *)
Fixpoint join (sep : jsstr) (l : list jsstr) : jsstr :=
  match l with
  | [] => []
  | [x] => x
  | x :: l' => x ++ sep ++ join sep l'
  end.

(** [s.split(/\s+/)]: the pieces between maximal runs of whitespace; a
    leading (trailing) run yields an empty first (last) piece, and the
    empty string yields a list holding only the empty string.  [cur] holds the current piece reversed;
    [inws] says a whitespace run is being skipped. *)
Fixpoint split_ws_go (cur : jsstr) (inws : bool) (s : jsstr) : list jsstr :=
  match s with
  | [] => [rev cur]
  | c :: s' =>
      if is_ws c
      then if inws then split_ws_go cur true s'
           else rev cur :: split_ws_go [] true s'
      else split_ws_go (c :: cur) false s'
  end.

Definition split_ws (s : jsstr) : list jsstr := split_ws_go [] false s.

(** ** JavaScript numbers as far as the handlers use them *)

Inductive jsnum :=
| Finite (num : Z) (den : positive)   (** the rational [num / den] *)
| NegZero
| PosInfinity
| NegInfinity
| NaN.

Definition digit_value (c : ascii) : option Z :=
  let n := nat_of_ascii c in
  if (Nat.leb 48 n && Nat.leb n 57)%bool then Some (Z.of_nat n - 48)%Z else None.

Fixpoint digits_go (acc : Z) (seen : bool) (s : jsstr) : option Z :=
  match s with
  | c :: s' =>
      match digit_value c with
      | Some d => digits_go (10 * acc + d)%Z true s'
      | None => if seen then Some acc else None
      end
  | [] => if seen then Some acc else None
  end.

(** [parseInt(s, 10)]: leading whitespace, an optional sign, then the
    longest run of decimal digits; [NaN] when there is no digit. *)
Definition parse_int (s : jsstr) : jsnum :=
  let s1 := trim_start s in
  let '(neg, s2) :=
    match s1 with
    | "-"%char :: r => (true, r)
    | "+"%char :: r => (false, r)
    | _ => (false, s1)
    end in
  match digits_go 0 false s2 with
  | None => NaN
  | Some n =>
      if neg then (if (n =? 0)%Z then NegZero else Finite (- n) 1)
      else Finite n 1
  end.

(** [n / d] for a non-negative integer [n] (an array length). *)
Definition js_div_len (n : Z) (d : jsnum) : jsnum :=
  match d with
  | NaN => NaN
  | Finite m k =>
      if (m =? 0)%Z then (if (n =? 0)%Z then NaN else PosInfinity)
      else if (0 <? m)%Z then Finite (n * Zpos k) (Z.to_pos m)
      else Finite (- (n * Zpos k)) (Z.to_pos (- m))
  | NegZero => if (n =? 0)%Z then NaN else NegInfinity
  | PosInfinity => Finite 0 1
  | NegInfinity => NegZero
  end.

(** ** Data exchanged with the collaborators *)

Module Caption.
(** An element of the array returned by [getSubtitles]. *)
Record t := { text : jsstr; start : jsstr; dur : jsstr }.
End Caption.

Module Cue.
(** An element of [subtitlesWithTimestamps] ([end] is a keyword). *)
Record t := { text : jsstr; start : Z; end_ : Z }.
End Cue.

Record video_details := { title : jsstr; lengthSeconds : jsstr }.

(** The prompts sent to Gemini, by the fields the template literals
    interpolate. *)
Inductive prompt :=
| VttPrompt (languageName transcript : jsstr)          (** server.js *)
| PlainPrompt (language videoTitle transcript : jsstr). (** part_000 *)

(** An awaited call either returns a value or throws. *)
Inductive outcome (A : Type) := Returns (a : A) | Throws.
Arguments Returns {A} a.
Arguments Throws {A}.

(** The network calls a handler issues, in order. *)
Inductive event :=
| GetSubtitles (videoID lang : jsstr)
| GetInfo (videoId : jsstr)
| GenerateContent (p : prompt).

(** What the external libraries answer, as functions of their inputs. *)
Record collaborators := {
  getSubtitles : jsstr -> jsstr -> outcome (option (list Caption.t));
  (** [new Intl.DisplayNames(['en'], {type: 'language'}).of] *)
  displayName : jsstr -> outcome jsstr;
  generateContent : prompt -> outcome jsstr;
  getInfo : jsstr -> outcome video_details
}.

Inductive response :=
| JsonMessage (status : Z) (message : jsstr)       (** [{ message }] *)
| JsonError (status : Z) (error : jsstr)           (** [{ error }] *)
| VttText (body : jsstr)                            (** 200, text/vtt *)
| JsonSubtitles (subtitles : list Cue.t).           (** 200, [{ subtitles }] *)

(** A request body field, [undefined] being [None]; [!x] holds for
    [undefined] and for the empty string. *)
Definition truthy (x : option jsstr) : option jsstr :=
  match x with
  | Some (_ :: _) => x
  | _ => None
  end.

(** ** [/api/generate] (src/sever/server.js) *)

(** [[^&?]+], greedy *)
Fixpoint take_id (s : jsstr) : jsstr :=
  match s with
  | c :: s' =>
      if (Ascii.eqb c "&" || Ascii.eqb c "?")%bool then [] else c :: take_id s'
  | [] => []
  end.

(** The regular expression [(?:v=|youtu\.be\/)] followed by [([^&?]+)] tried
    at one position: the alternatives in order. *)
Definition match_at (s : jsstr) : option jsstr :=
  let alt (p : jsstr) :=
    if starts_with p s
    then match take_id (skipn (List.length p) s) with [] => None | id => Some id end
    else None in
  match alt (lit "v=") with
  | Some id => Some id
  | None => alt (lit "youtu.be/")
  end.

(** [youtubeUrl.match(...)[1]]: the leftmost position where the pattern
    matches. *)
Fixpoint match_video_id (s : jsstr) : option jsstr :=
  match s with
  | [] => None
  | _ :: s' =>
      match match_at s with
      | Some id => Some id
      | None => match_video_id s'
      end
  end.

Definition msg_missing_generate := lit "Missing youtubeUrl or language in request body.".
Definition msg_invalid_url := lit "Invalid YouTube URL format.".
Definition msg_no_captions :=
  lit "No English subtitles found for this video. Cannot generate translation.".
Definition msg_internal := lit "An internal server error occurred.".

(** [captions.map(c => c.text).join(' ')] *)
Definition transcript_of (captions : list Caption.t) : jsstr :=
  join (lit " ") (map Caption.text captions).

(** The handler: its network calls and its response. *)
Definition api_generate (env : collaborators) (youtubeUrl language : option jsstr)
  : list event * response :=
  match truthy youtubeUrl, truthy language with
  | Some url, Some lang =>
      match match_video_id url with
      | None => ([], JsonMessage 400 msg_invalid_url)
      | Some videoID =>
          let e1 := GetSubtitles videoID (lit "en") in
          match getSubtitles env videoID (lit "en") with
          | Throws => ([e1], JsonMessage 500 msg_internal)
          | Returns None | Returns (Some []) => ([e1], JsonMessage 404 msg_no_captions)
          | Returns (Some captions) =>
              let transcript := transcript_of captions in
              match displayName env lang with
              | Throws => ([e1], JsonMessage 500 msg_internal)
              | Returns languageName =>
                  let p := VttPrompt languageName transcript in
                  let e2 := GenerateContent p in
                  match generateContent env p with
                  | Throws => ([e1; e2], JsonMessage 500 msg_internal)
                  | Returns vttContent => ([e1; e2], VttText (repair_vtt vttContent))
                  end
              end
          end
      end
  | _, _ => ([], JsonMessage 400 msg_missing_generate)
  end.

(** ** [/api/subtitles] (src/unnamed/part_000) *)

(** The loop that builds [subtitlesWithTimestamps]:
<<
while (wordIndex < words.length) {
    const subtitleText = words.slice(wordIndex, wordIndex + 5).join(' ');
    if (subtitleText.trim() === '') { wordIndex += 5; continue; }
    subtitlesWithTimestamps.push({ text: subtitleText, start: timeOffset, end: timeOffset + 2 });
    wordIndex += 5;
    timeOffset += 2;
}
>>
    [fuel] counts iterations; [words.length] iterations always suffice. *)
Fixpoint synth_loop (fuel : nat) (words : list jsstr) (wordIndex : nat) (timeOffset : Z)
  : list Cue.t :=
  match fuel with
  | O => []
  | S f =>
      if Nat.ltb wordIndex (List.length words) then
        let subtitleText := join (lit " ") (firstn 5 (skipn wordIndex words)) in
        match trim subtitleText with
        | [] => synth_loop f words (wordIndex + 5) timeOffset
        | _ :: _ =>
            {| Cue.text := subtitleText; Cue.start := timeOffset;
               Cue.end_ := (timeOffset + 2)%Z |}
            :: synth_loop f words (wordIndex + 5) (timeOffset + 2)%Z
        end
      else []
  end.

(** Lines 478-498: [wordsPerSecond] and the cue list. *)
Definition synthesize (translatedText : jsstr) (videoDuration : jsnum) : jsnum * list Cue.t :=
  let words := split_ws translatedText in
  let wordsPerSecond := js_div_len (Z.of_nat (List.length words)) videoDuration in
  (wordsPerSecond, synth_loop (List.length words) words 0 0%Z).

Definition msg_required := lit "Video ID and language are required.".
Definition msg_failed :=
  lit "Failed to generate subtitles. Please check the video link and try again.".

(** The fixed English text sent for translation (lines 455-457; the
    newline and indentation around it in the template literal omitted). *)
Definition englishTranscriptPlaceholder : jsstr :=
  lit "Hello everyone and welcome to this video tutorial. In this segment, we will be discussing the fundamental concepts of full-stack web development. First, we will cover the basics of a client-server architecture. On the client side, we use languages like HTML, CSS, and JavaScript. On the server side, we use frameworks like Node.js and Express to handle requests and data. This separation is crucial for building scalable and maintainable applications. Thank you for watching and stay tuned for more!".

Definition api_subtitles (env : collaborators) (videoId language : option jsstr)
  : list event * response :=
  match truthy videoId, truthy language with
  | Some vid, Some lang =>
      let e1 := GetInfo vid in
      match getInfo env vid with
      | Throws => ([e1], JsonError 500 msg_failed)
      | Returns videoDetails =>
          let videoDuration := parse_int (lengthSeconds videoDetails) in
          let p := PlainPrompt lang (title videoDetails) englishTranscriptPlaceholder in
          let e2 := GenerateContent p in
          match generateContent env p with
          | Throws => ([e1; e2], JsonError 500 msg_failed)
          | Returns translatedText =>
              ([e1; e2], JsonSubtitles (snd (synthesize translatedText videoDuration)))
          end
      end
  | _, _ => ([], JsonError 400 msg_required)
  end.

(** ** Shape of the synthesized cue list *)

(** The properties C4 asks of a cue list: [start < end] for every cue, and
    for adjacent cues [end <= next start] and [end = next start]. *)
Fixpoint cues_ordered (l : list Cue.t) : Prop :=
  match l with
  | [] => True
  | c :: rest =>
      (Cue.start c < Cue.end_ c)%Z /\
      match rest with
      | [] => True
      | c' :: _ => (Cue.end_ c <= Cue.start c')%Z /\ Cue.end_ c = Cue.start c'
      end /\
      cues_ordered rest
  end.

(** The cues start at [t] and follow each other every two seconds. *)
Fixpoint cues_from (t : Z) (l : list Cue.t) : Prop :=
  match l with
  | [] => True
  | c :: rest => Cue.start c = t /\ Cue.end_ c = (t + 2)%Z /\ cues_from (t + 2)%Z rest
  end.

(** ** Concrete collaborators and inputs *)

Open Scope string_scope.
Open Scope list_scope.

Definition lines (l : list string) : jsstr := join [nl] (map lit l).

Definition demo_url : jsstr := lit "https://www.youtube.com/watch?v=dQw4w9WgXcQ&t=42".
Definition demo_id : jsstr := lit "dQw4w9WgXcQ".

Definition demo_captions : list Caption.t :=
  [ {| Caption.text := lit "Hello, World."; Caption.start := lit "0.5"; Caption.dur := lit "2" |};
    {| Caption.text := lit "how ARE you?"; Caption.start := lit "2.5"; Caption.dur := lit "1.8" |} ].

(** Captions as given, Gemini answering [payload], a video of
    [lengthSeconds] seconds. *)
Definition demo_env (captions : option (list Caption.t)) (payload lengthSeconds : jsstr)
  : collaborators := {|
  getSubtitles := fun _ _ => Returns captions;
  displayName := fun _ => Returns (lit "Spanish");
  generateContent := fun _ => Returns payload;
  getInfo := fun _ => Returns {| title := lit "Demo"; lengthSeconds := lengthSeconds |}
|}.

(** A timed document whose only cue ends before it starts. *)
Definition reversed_cue_payload : jsstr :=
  lines ["WEBVTT"; EmptyString; "00:00:05.000 --> 00:00:01.000"; "Hola"].

(** A header-less document wrapped in a code fence. *)
Definition fenced_payload : jsstr :=
  lines ["```vtt"; "00:00:00.000 --> 00:00:02.000"; "Hola"; "```"].

(** A document whose cue text contains a [```] run. *)
Definition backtick_cue_payload : jsstr :=
  lines ["WEBVTT"; EmptyString; "00:00:00.000 --> 00:00:02.000"; "usa ```npm``` aqui"].

Definition backtick_cue_repaired : jsstr :=
  lines ["WEBVTT"; EmptyString; "00:00:00.000 --> 00:00:02.000"; "usa npm aqui"].

(** Twenty-five words after one leading space. *)
Definition leading_space_25 : jsstr :=
  lit " w1 w2 w3 w4 w5 w6 w7 w8 w9 w10 w11 w12 w13 w14 w15 w16 w17 w18 w19 w20 w21 w22 w23 w24 w25".

Definition cue_times (l : list Cue.t) : list (Z * Z) :=
  map (fun c => (Cue.start c, Cue.end_ c)) l.

Definition plain_prompt_demo (language : jsstr) : prompt :=
  PlainPrompt language (lit "Demo") englishTranscriptPlaceholder.


(** A word as [split(/\s+/)] returns it between separators. *)
Definition good_word (w : jsstr) : Prop :=
  w <> [] /\ forallb (fun c => negb (is_ws c)) w = true.


(** ** The two front ends (src/unnamed/part_000) *)

(** The [code] fields of the language dropdown of the first client
    (lines 15-22); the selected language starts at ['en']. *)
Definition client1_languages : list jsstr :=
  map lit ["en"; "es"; "fr"; "de"; "ja"; "zh"]%string.

(** [[^&?\s]+] in the pattern of [fetchSubtitles] (line 27), greedy. *)
Fixpoint take_client1_id (s : jsstr) : jsstr :=
  match s with
  | c :: s' =>
      if (Ascii.eqb c "&" || Ascii.eqb c "?" || is_ws c)%bool then []
      else c :: take_client1_id s'
  | [] => []
  end.

(** [(?:be\.com\/watch\?v=|\.be\/)([^&?\s]+)], after [youtu]. *)
Definition client1_tail (s : jsstr) : option jsstr :=
  let alt (p : jsstr) :=
    if starts_with p s
    then match take_client1_id (skipn (List.length p) s) with [] => None | id => Some id end
    else None in
  match alt (lit "be.com/watch?v=") with
  | Some id => Some id
  | None => alt (lit ".be/")
  end.

(** [(?:www\.)?youtu...]: the optional group tried first, then skipped. *)
Definition client1_at_www (s : jsstr) : option jsstr :=
  let go (t : jsstr) :=
    if starts_with (lit "youtu") t then client1_tail (skipn 5 t) else None in
  match (if starts_with (lit "www.") s then go (skipn 4 s) else None) with
  | Some id => Some id
  | None => go s
  end.

(** [(?:https?:\/\/)?]: [https://], then [http://], then nothing. *)
Definition client1_at (s : jsstr) : option jsstr :=
  match (if starts_with (lit "https://") s then client1_at_www (skipn 8 s) else None) with
  | Some id => Some id
  | None =>
      match (if starts_with (lit "http://") s then client1_at_www (skipn 7 s) else None) with
      | Some id => Some id
      | None => client1_at_www s
      end
  end.

(** [youtubeLink.match(urlRegex)[1]], the leftmost match; [None] is the
    branch that sets ['Please enter a valid YouTube video URL.']. *)
Fixpoint client1_video_id (s : jsstr) : option jsstr :=
  match s with
  | [] => None
  | _ :: s' =>
      match client1_at s with
      | Some id => Some id
      | None => client1_video_id s'
      end
  end.

(** The [code] fields of the language dropdown of the second client
    (lines 163-175); the selected language starts at ['es']. *)
Definition client2_languages : list jsstr :=
  map lit ["es"; "fr"; "de"; "it"; "pt"; "ja"; "ko"; "zh-CN"; "hi"; "ar"; "ru"]%string.

(** The line terminators that [.] does not match (the ASCII ones). *)
Definition is_line_terminator (c : ascii) : bool :=
  (Ascii.eqb c "010" || Ascii.eqb c "013")%bool.

(** [\w] *)
Definition is_word (c : ascii) : bool :=
  let n := nat_of_ascii c in
  ((Nat.leb 48 n && Nat.leb n 57) || (Nat.leb 65 n && Nat.leb n 90) ||
   (Nat.leb 97 n && Nat.leb n 122) || Nat.eqb n 95)%bool.

(** The alternatives [youtu.be/], [v/], [u/\w/], [embed/], [watch?v=], [&v=] of
    [getYouTubeID] (line 202) tried in order at one position; the result is
    the text after the alternative. The [.] of [youtu.be] is any character
    but a line terminator. *)
Definition client2_alt (s : jsstr) : option jsstr :=
  let lit_alt (p : jsstr) :=
    if starts_with p s then Some (skipn (List.length p) s) else None in
  let youtu_alt :=
    if starts_with (lit "youtu") s then
      match skipn 5 s with
      | x :: r =>
          if (negb (is_line_terminator x) && starts_with (lit "be/") r)%bool
          then Some (skipn 3 r) else None
      | [] => None
      end
    else None in
  let u_alt :=
    if starts_with (lit "u/") s then
      match skipn 2 s with
      | w :: d :: r => if (is_word w && Ascii.eqb d "/")%bool then Some r else None
      | _ => None
      end
    else None in
  List.fold_right (fun o acc => match o with Some r => Some r | None => acc end) None
    [youtu_alt; lit_alt (lit "v/"); u_alt; lit_alt (lit "embed/");
     lit_alt (lit "watch?v="); lit_alt (lit "&v=")].

(** The second group: the longest run of characters other than [#], [&]
    and [?] (line terminators included). *)
Fixpoint take_client2_id (s : jsstr) : jsstr :=
  match s with
  | c :: s' =>
      if (Ascii.eqb c "#" || Ascii.eqb c "&" || Ascii.eqb c "?")%bool then []
      else c :: take_client2_id s'
  | [] => []
  end.

(** The whole pattern, anchored by [^]: the greedy [.*] first runs to the first line
    terminator, then gives back one character at a time until the
    alternatives match; the result is [match[2]]. The trailing [.*] always
    matches. *)
Fixpoint client2_match (s : jsstr) : option jsstr :=
  match s with
  | [] => option_map take_client2_id (client2_alt s)
  | c :: s' =>
      if is_line_terminator c then option_map take_client2_id (client2_alt s)
      else
        match client2_match s' with
        | Some g => Some g
        | None => option_map take_client2_id (client2_alt s)
        end
  end.

(** [getYouTubeID] (lines 201-205). *)
Definition getYouTubeID (url : jsstr) : option jsstr :=
  match client2_match url with
  | Some g => if Nat.eqb (List.length g) 11 then Some g else None
  | None => None
  end.

(** The characters of a YouTube video id: [[A-Za-z0-9_-]]. *)
Definition id_char (c : ascii) : bool := (is_word c || Ascii.eqb c "-")%bool.

Definition embed_prefix : jsstr := lit "https://www.youtube.com/embed/".
Definition watch_prefix : jsstr := lit "https://www.youtube.com/watch?v=".

(** [edge_ok t]: [t] has no leading whitespace, so [trimStart] keeps it. *)
Definition edge_ok (t : jsstr) : Prop :=
  match t with
  | [] => True
  | c :: _ => is_ws c = false
  end.

(** * Proofs *)

(** ** Facts about the string operations *)

Lemma starts_with_spec (p s : jsstr) :
  starts_with p s = true <-> exists r, s = p ++ r.
Proof.
  revert s; induction p as [|a p IH]; intros s; simpl.
  - split; [intros _; now exists s | reflexivity].
  - destruct s as [|b s].
    + split; [discriminate | intros [r Hr]; discriminate].
    + rewrite Bool.andb_true_iff, IH, Ascii.eqb_eq. split.
      * intros [-> [r ->]]. now exists r.
      * intros [r Hr]. injection Hr as -> ->. split; [reflexivity | now exists r].
Qed.

Lemma starts_with_app (p q : jsstr) : starts_with p (p ++ q) = true.
Proof. apply starts_with_spec. now exists q. Qed.

Lemma remove_all_fuel_nil (fuel : nat) (pat : jsstr) :
  remove_all_fuel fuel pat [] = [].
Proof. now destruct fuel. Qed.

Lemma starts_with_false (p s : jsstr) :
  (forall r, s <> p ++ r) -> starts_with p s = false.
Proof.
  intros H. destruct (starts_with p s) eqn:E; [|reflexivity].
  apply starts_with_spec in E as [r Hr]. now destruct (H r).
Qed.

(** Where the pattern does not match, the character is copied. *)
Lemma remove_all_fuel_copy (f : nat) (pat s : jsstr) (c : ascii) :
  starts_with pat (c :: s) = false ->
  remove_all_fuel (S f) pat (c :: s) = c :: remove_all_fuel f pat s.
Proof. intros H. cbn [remove_all_fuel]. now rewrite H. Qed.

(** After removing every [```], a string that did not start with two
    backticks still does not. *)
Lemma remove_fence_keeps_no_two (fuel : nat) (s : jsstr) :
  List.length s < fuel -> starts_with two_bt s = false ->
  starts_with two_bt (remove_all_fuel fuel fence s) = false.
Proof.
  destruct fuel as [|f]; [lia|]. intros Hlen H2.
  destruct s as [|c s']; [reflexivity|].
  destruct (Ascii.eqb_spec c backtick) as [->|Hc].
  - destruct s' as [|d s''].
    + rewrite remove_all_fuel_copy.
      * now rewrite remove_all_fuel_nil.
      * apply starts_with_false. intros r Hr. discriminate Hr.
    + assert (Hd : d <> backtick).
      { intros ->. change (backtick :: backtick :: s'') with (two_bt ++ s'') in H2.
        now rewrite starts_with_app in H2. }
      destruct f as [|f']; [simpl in Hlen; lia|].
      rewrite remove_all_fuel_copy, remove_all_fuel_copy.
      * apply starts_with_false. intros r Hr. injection Hr as Hr _. unfold backtick in *. congruence.
      * apply starts_with_false. intros r Hr. injection Hr as Hr _. unfold backtick in *. congruence.
      * apply starts_with_false. intros r Hr. injection Hr as Hr _. unfold backtick in *. congruence.
  - rewrite remove_all_fuel_copy.
    + apply starts_with_false. intros r Hr. injection Hr as Hr _. unfold backtick in *. congruence.
    + apply starts_with_false. intros r Hr. injection Hr as Hr _. unfold backtick in *. congruence.
Qed.

(** The global replace of [```] leaves no [```] behind: the matches lie
    inside runs of backticks, and each run keeps fewer than three. *)
Lemma remove_fence_fuel_no_fence (fuel : nat) (s : jsstr) :
  List.length s < fuel -> ~ infix fence (remove_all_fuel fuel fence s).
Proof.
  revert s; induction fuel as [|f IH]; intros s Hlen; [lia|].
  destruct s as [|c s']; [simpl; intros [[|x l] [r Hr]]; discriminate|].
  cbn [remove_all_fuel].
  destruct (starts_with fence (c :: s')) eqn:Hf.
  - apply IH. rewrite List.length_skipn. simpl in *. lia.
  - intros [l [r Hr]]. destruct l as [|x l].
    + simpl in Hr. injection Hr as -> Hr.
      assert (H2 : starts_with two_bt s' = false).
      { destruct (starts_with two_bt s') eqn:E; [|reflexivity].
        apply starts_with_spec in E as [t ->]. simpl in Hf.
        discriminate. }
      pose proof (remove_fence_keeps_no_two f s') as K.
      simpl in Hlen. rewrite Hr in K. simpl in K.
      discriminate K; lia || exact H2.
    + injection Hr as _ Hr. apply (IH s'); [simpl in Hlen; lia|].
      now exists l, r.
Qed.

Lemma remove_fence_no_fence (s : jsstr) : ~ infix fence (remove_all fence s).
Proof. apply remove_fence_fuel_no_fence. lia. Qed.

Lemma trim_start_suffix (s : jsstr) : exists a, s = a ++ trim_start s.
Proof.
  induction s as [|c s [a Ha]]; [now exists []|].
  simpl. destruct (is_ws c); [exists (c :: a); simpl; congruence | now exists []].
Qed.

Lemma trim_infix (s : jsstr) : exists a b, s = a ++ trim s ++ b.
Proof.
  destruct (trim_start_suffix s) as [a Ha].
  destruct (trim_start_suffix (rev (trim_start s))) as [b Hb].
  exists a, (rev b). unfold trim.
  rewrite Ha at 1. f_equal.
  rewrite <- rev_app_distr, <- Hb, rev_involutive. reflexivity.
Qed.

Lemma infix_trim (p s : jsstr) : infix p (trim s) -> infix p s.
Proof.
  intros [l [r Hr]]. destruct (trim_infix s) as [a [b Hs]].
  exists (a ++ l), (r ++ b). rewrite Hs, Hr. now rewrite !app_assoc.
Qed.

(** A prefix without backticks cannot take part in a [```]. *)
Lemma infix_fence_app_no_bt (h v : jsstr) :
  ~ In backtick h -> infix fence (h ++ v) -> infix fence v.
Proof.
  induction h as [|c h IH]; intros Hn Hi; [exact Hi|].
  destruct Hi as [[|x l] [r Hr]].
  - simpl in Hr. injection Hr as Hc _. exfalso. apply Hn. left. now symmetry.
  - injection Hr as _ Hr. apply IH; [intros Hin; apply Hn; now right|].
    now exists l, r.
Qed.

Lemma clean_vtt_no_fence (s : jsstr) : ~ infix fence (clean_vtt s).
Proof.
  intros Hi. apply infix_trim in Hi. exact (remove_fence_no_fence _ Hi).
Qed.

Lemma repair_vtt_no_fence (s : jsstr) : ~ infix fence (repair_vtt s).
Proof.
  unfold repair_vtt. destruct (starts_with webvtt (clean_vtt s)).
  - apply clean_vtt_no_fence.
  - intros Hi. apply infix_fence_app_no_bt in Hi.
    + exact (clean_vtt_no_fence _ Hi).
    + vm_compute. intros H. repeat (destruct H as [H|H]; [discriminate H|]). exact H.
Qed.

Lemma repair_vtt_starts_webvtt (s : jsstr) : starts_with webvtt (repair_vtt s) = true.
Proof.
  unfold repair_vtt. destruct (starts_with webvtt (clean_vtt s)) eqn:E; [exact E|].
  unfold webvtt_header. rewrite <- app_assoc. apply starts_with_app.
Qed.

(** ** The cue list of the synthesizer *)

Lemma synth_loop_cues_from (fuel : nat) (words : list jsstr) (wordIndex : nat) (t : Z) :
  cues_from t (synth_loop fuel words wordIndex t).
Proof.
  revert wordIndex t; induction fuel as [|f IH]; intros wordIndex t; [exact I|].
  cbn [synth_loop]. destruct (Nat.ltb wordIndex (List.length words)); [|exact I].
  destruct (trim _); [apply IH|].
  simpl. auto.
Qed.

Lemma cues_from_ordered (t : Z) (l : list Cue.t) : cues_from t l -> cues_ordered l.
Proof.
  revert t; induction l as [|c rest IH]; intros t H; [exact I|].
  destruct H as [Hs [He Hr]]. simpl. split; [lia|]. split; [|exact (IH _ Hr)].
  destruct rest as [|c' rest']; [exact I|]. destruct Hr as [Hs' _]. lia.
Qed.

Lemma split_ws_go_not_nil (cur : jsstr) (inws : bool) (s : jsstr) : split_ws_go cur inws s <> [].
Proof.
  revert cur inws; induction s as [|c s IH]; intros cur inws; simpl; [discriminate|].
  destruct (is_ws c); [destruct inws; [apply IH|discriminate]|apply IH].
Qed.

Lemma split_ws_length (s : jsstr) : (1 <= List.length (split_ws s))%nat.
Proof.
  unfold split_ws. destruct (split_ws_go [] false s) eqn:E; [|simpl; lia].
  exfalso. exact (split_ws_go_not_nil _ _ _ E).
Qed.

(** ** Splitting and trimming well-formed words *)

Lemma join_cons_cons (sep x y : jsstr) (l : list jsstr) :
  join sep (x :: y :: l) = x ++ sep ++ join sep (y :: l).
Proof. reflexivity. Qed.

Lemma split_ws_go_word (w cur rest : jsstr) :
  forallb (fun c => negb (is_ws c)) w = true ->
  split_ws_go cur false (w ++ rest) = split_ws_go (rev w ++ cur) false rest.
Proof.
  revert cur; induction w as [|c w IH]; intros cur Hw; [reflexivity|].
  simpl in Hw. apply Bool.andb_true_iff in Hw as [Hc Hw].
  cbn [app split_ws_go]. destruct (is_ws c); [discriminate Hc|].
  rewrite IH by exact Hw. simpl. now rewrite <- app_assoc.
Qed.

Lemma split_ws_go_good (w cur rest : jsstr) (inws : bool) :
  good_word w -> split_ws_go cur inws (w ++ rest) = split_ws_go (rev w ++ cur) false rest.
Proof.
  intros [Hne Hw]. destruct w as [|c w]; [easy|].
  simpl in Hw. apply Bool.andb_true_iff in Hw as [Hc Hw].
  cbn [app split_ws_go]. destruct (is_ws c); [discriminate Hc|].
  rewrite split_ws_go_word by exact Hw. simpl. now rewrite <- app_assoc.
Qed.

Lemma split_ws_join (ws : list jsstr) (inws : bool) :
  ws <> [] -> Forall good_word ws -> split_ws_go [] inws (join (lit " ") ws) = ws.
Proof.
  revert inws; induction ws as [|w ws IH]; intros inws Hne Hall; [easy|].
  inversion Hall as [|? ? Hw Hws]; subst.
  destruct ws as [|w2 ws].
  - cbn [join]. rewrite <- (app_nil_r w) at 1.
    rewrite split_ws_go_good by exact Hw. simpl. now rewrite app_nil_r, rev_involutive.
  - rewrite join_cons_cons. rewrite split_ws_go_good by exact Hw. cbn [lit list_ascii_of_string app].
    cbn [split_ws_go]. replace (is_ws " "%char) with true by reflexivity.
    rewrite app_nil_r, rev_involutive. f_equal. apply IH; [discriminate|exact Hws].
Qed.

Lemma trim_start_ws_prefix (s : jsstr) :
  exists a, s = a ++ trim_start s /\ forallb is_ws a = true.
Proof.
  induction s as [|c s [a [Ha Hw]]]; [now exists []|].
  simpl. destruct (is_ws c) eqn:Ec.
  - exists (c :: a). simpl. rewrite Ec. split; [congruence|exact Hw].
  - now exists [].
Qed.

Lemma trim_start_nil_ws (s : jsstr) : trim_start s = [] -> forallb is_ws s = true.
Proof.
  intros H. destruct (trim_start_ws_prefix s) as [a [Ha Hw]].
  rewrite H, app_nil_r in Ha. now subst.
Qed.

Lemma forallb_rev_ws (s : jsstr) : forallb is_ws (rev s) = forallb is_ws s.
Proof.
  induction s as [|c s IH]; [reflexivity|]. simpl.
  rewrite forallb_app, IH. simpl. now rewrite Bool.andb_true_r, Bool.andb_comm.
Qed.

Lemma trim_nil_ws (s : jsstr) : trim s = [] -> forallb is_ws s = true.
Proof.
  unfold trim. intros H.
  apply (f_equal (@rev ascii)) in H. rewrite rev_involutive in H. simpl in H.
  apply trim_start_nil_ws in H. rewrite forallb_rev_ws in H.
  destruct (trim_start_ws_prefix s) as [a [Ha Hw]].
  rewrite Ha, forallb_app, Hw, H. reflexivity.
Qed.

Lemma join_cons_prefix (sep w : jsstr) (ws : list jsstr) :
  exists r, join sep (w :: ws) = w ++ r.
Proof.
  destruct ws as [|w2 ws]; [exists []; simpl; now rewrite app_nil_r|].
  rewrite join_cons_cons. now eexists.
Qed.

Lemma trim_join_good (w : jsstr) (ws : list jsstr) :
  good_word w -> trim (join (lit " ") (w :: ws)) <> [].
Proof.
  intros [Hne Hw] Ht. apply trim_nil_ws in Ht.
  destruct (join_cons_prefix (lit " ") w ws) as [r Hr]. rewrite Hr, forallb_app in Ht.
  apply Bool.andb_true_iff in Ht as [Ht _].
  destruct w as [|c w]; [easy|]. simpl in Hw, Ht.
  destruct (is_ws c); discriminate.
Qed.

Lemma synth_loop_step (f : nat) (ws : list jsstr) (wordIndex : nat) (t : Z) (w : jsstr) (rest : list jsstr) :
  skipn wordIndex ws = w :: rest -> good_word w ->
  synth_loop (S f) ws wordIndex t
    = {| Cue.text := join (lit " ") (firstn 5 (w :: rest)); Cue.start := t; Cue.end_ := (t + 2)%Z |}
      :: synth_loop f ws (wordIndex + 5) (t + 2)%Z.
Proof.
  intros Hs Hw. cbn [synth_loop].
  assert (Hlt : Nat.ltb wordIndex (List.length ws) = true).
  { apply Nat.ltb_lt. destruct (Nat.lt_ge_cases wordIndex (List.length ws)) as [H|H]; [exact H|].
    rewrite skipn_all2 in Hs by exact H. discriminate Hs. }
  rewrite Hlt, Hs.
  destruct (trim (join (lit " ") (firstn 5 (w :: rest)))) eqn:E.
  - exfalso. exact (trim_join_good w (firstn 4 rest) Hw E).
  - reflexivity.
Qed.

Lemma synth_loop_stop (f : nat) (ws : list jsstr) (wordIndex : nat) (t : Z) :
  (List.length ws <= wordIndex)%nat -> synth_loop f ws wordIndex t = [].
Proof.
  intros H. destruct f; [reflexivity|]. cbn [synth_loop].
  replace (Nat.ltb wordIndex (List.length ws)) with false
    by (symmetry; apply Nat.ltb_ge; exact H).
  reflexivity.
Qed.

(** Twenty-five words joined by single spaces give the five cues
    [0-2 .. 8-10], each holding five consecutive words. *)
Lemma synthesize_25_words (ws : list jsstr) (videoDuration : jsnum) :
  List.length ws = 25%nat -> Forall good_word ws ->
  cue_times (snd (synthesize (join (lit " ") ws) videoDuration))
    = [(0, 2); (2, 4); (4, 6); (6, 8); (8, 10)]%Z /\
  map Cue.text (snd (synthesize (join (lit " ") ws) videoDuration))
    = map (join (lit " "))
        [firstn 5 ws; firstn 5 (skipn 5 ws); firstn 5 (skipn 10 ws);
         firstn 5 (skipn 15 ws); firstn 5 (skipn 20 ws)].
Proof.
  intros Hlen Hall. unfold synthesize, split_ws.
  rewrite split_ws_join; [|intros ->; discriminate Hlen | exact Hall].
  do 25 (destruct ws as [|? ws]; [discriminate Hlen|]).
  destruct ws; [|discriminate Hlen].
  rewrite Hlen.
  repeat (erewrite synth_loop_step;
          [| reflexivity | apply (proj1 (Forall_forall _ _) Hall); simpl; tauto]).
  rewrite synth_loop_stop by (simpl; lia).
  split; reflexivity.
Qed.


(** ** Paths through [/api/generate] *)

Lemma api_generate_success (env : collaborators) (url lang videoID languageName payload : jsstr)
  (captions : list Caption.t) :
  lang <> [] -> match_video_id url = Some videoID ->
  getSubtitles env videoID (lit "en") = Returns (Some captions) -> captions <> [] ->
  displayName env lang = Returns languageName ->
  generateContent env (VttPrompt languageName (transcript_of captions)) = Returns payload ->
  api_generate env (Some url) (Some lang)
    = ([GetSubtitles videoID (lit "en");
        GenerateContent (VttPrompt languageName (transcript_of captions))],
       VttText (repair_vtt payload)).
Proof.
  intros Hl Hm Hs Hc Hd Hg.
  destruct url as [|u url]; [discriminate Hm|]. destruct lang as [|a lang]; [easy|].
  unfold api_generate; cbn [truthy]. rewrite Hm, Hs.
  destruct captions as [|c cs]; [easy|]. rewrite Hd, Hg. reflexivity.
Qed.


(** ** C1 *)

(** C1 (counterexample): a payload whose only cue ends (1 s) before it
    starts (5 s) is answered with status 200 and the payload itself. *)
Lemma api_generate_accepts_reversed_cue :
  api_generate (demo_env (Some demo_captions) reversed_cue_payload (lit "10"))
    (Some demo_url) (Some (lit "es"))
  = ([GetSubtitles demo_id (lit "en");
      GenerateContent (VttPrompt (lit "Spanish") (transcript_of demo_captions))],
     VttText reversed_cue_payload).
Proof. vm_compute. reflexivity. Qed.

(** C1 (as the code does it): once captions were found and Gemini answered,
    [/api/generate] answers with [repair_vtt payload] -- fences removed,
    trimmed, header restored -- whatever timestamps the payload holds; no
    timing check can make it fail. *)
Theorem api_generate_timed_no_validation (env : collaborators)
  (url lang videoID languageName payload : jsstr) (captions : list Caption.t) :
  lang <> [] -> match_video_id url = Some videoID ->
  getSubtitles env videoID (lit "en") = Returns (Some captions) -> captions <> [] ->
  displayName env lang = Returns languageName ->
  generateContent env (VttPrompt languageName (transcript_of captions)) = Returns payload ->
  snd (api_generate env (Some url) (Some lang)) = VttText (repair_vtt payload).
Proof.
  intros Hl Hm Hs Hc Hd Hg.
  now rewrite (api_generate_success env url lang videoID languageName payload captions).
Qed.

Lemma api_generate_timed_no_validation_witness :
  snd (api_generate (demo_env (Some demo_captions) reversed_cue_payload (lit "10"))
         (Some demo_url) (Some (lit "es")))
  = VttText (repair_vtt reversed_cue_payload).
Proof.
  apply (api_generate_timed_no_validation
           (demo_env (Some demo_captions) reversed_cue_payload (lit "10"))
           demo_url (lit "es") demo_id (lit "Spanish") reversed_cue_payload demo_captions);
    vm_compute; first [reflexivity | discriminate].
Defined.

(** ** C2 *)

(** C2 (counterexample): a video of length ["0"] is not rejected; the
    handler computes [wordsPerSecond = 3 / 0 = Infinity] and answers with
    the cue list. *)
Lemma api_subtitles_zero_duration :
  api_subtitles (demo_env None (lit "uno dos tres") (lit "0")) (Some demo_id) (Some (lit "es"))
  = ([GetInfo demo_id; GenerateContent (plain_prompt_demo (lit "es"))],
     JsonSubtitles [ {| Cue.text := lit "uno dos tres"; Cue.start := 0; Cue.end_ := 2 |} ]) /\
  fst (synthesize (lit "uno dos tres") (parse_int (lit "0"))) = PosInfinity.
Proof. split; vm_compute; reflexivity. Qed.

(** C2 (as the code does it): there is no duration guard; once Gemini
    answered, [/api/subtitles] answers with a cue list that does not depend
    on the duration, and [wordsPerSecond] is [Infinity] for a zero
    duration and [NaN] for one [parseInt] cannot read. *)
Theorem api_subtitles_no_duration_guard (env : collaborators)
  (videoId language translatedText : jsstr) (details : video_details) :
  videoId <> [] -> language <> [] -> getInfo env videoId = Returns details ->
  generateContent env (PlainPrompt language (title details) englishTranscriptPlaceholder)
    = Returns translatedText ->
  api_subtitles env (Some videoId) (Some language)
    = ([GetInfo videoId;
        GenerateContent (PlainPrompt language (title details) englishTranscriptPlaceholder)],
       JsonSubtitles (synth_loop (List.length (split_ws translatedText))
                        (split_ws translatedText) 0 0)) /\
  (parse_int (lengthSeconds details) = Finite 0 1 ->
   fst (synthesize translatedText (parse_int (lengthSeconds details))) = PosInfinity) /\
  (parse_int (lengthSeconds details) = NaN ->
   fst (synthesize translatedText (parse_int (lengthSeconds details))) = NaN).
Proof.
  intros Hv Hl Hi Hg.
  split; [|split].
  - destruct videoId as [|v vs]; [easy|]. destruct language as [|a ls]; [easy|].
    unfold api_subtitles; cbn [truthy]. rewrite Hi, Hg. reflexivity.
  - intros Hz. unfold synthesize. rewrite Hz. cbn [js_div_len].
    pose proof (split_ws_length translatedText).
    replace (Z.of_nat (List.length (split_ws translatedText)) =? 0)%Z with false
      by (symmetry; apply Z.eqb_neq; lia).
    reflexivity.
  - intros Hn. unfold synthesize. now rewrite Hn.
Qed.

Lemma api_subtitles_no_duration_guard_witness :
  api_subtitles (demo_env None (lit "uno dos tres") (lit "0")) (Some demo_id) (Some (lit "es"))
    = ([GetInfo demo_id; GenerateContent (plain_prompt_demo (lit "es"))],
       JsonSubtitles (synth_loop (List.length (split_ws (lit "uno dos tres")))
                        (split_ws (lit "uno dos tres")) 0 0)) /\
  (parse_int (lit "0") = Finite 0 1 ->
   fst (synthesize (lit "uno dos tres") (parse_int (lit "0"))) = PosInfinity) /\
  (parse_int (lit "0") = NaN ->
   fst (synthesize (lit "uno dos tres") (parse_int (lit "0"))) = NaN).
Proof.
  apply (api_subtitles_no_duration_guard (demo_env None (lit "uno dos tres") (lit "0"))
           demo_id (lit "es") (lit "uno dos tres")
           {| title := lit "Demo"; lengthSeconds := lit "0" |});
    vm_compute; first [reflexivity | discriminate].
Defined.

(** ** C3 *)

(** C3 (counterexample): the tag ["xx"] reaches the caption fetch of
    [/api/generate] and the metadata fetch of [/api/subtitles]. *)
Lemma unsupported_language_reaches_network :
  hd_error (fst (api_generate (demo_env (Some demo_captions) fenced_payload (lit "10"))
                   (Some demo_url) (Some (lit "xx"))))
    = Some (GetSubtitles demo_id (lit "en")) /\
  hd_error (fst (api_subtitles (demo_env None fenced_payload (lit "10"))
                   (Some demo_id) (Some (lit "xx"))))
    = Some (GetInfo demo_id).
Proof. split; vm_compute; reflexivity. Qed.

(** C3 (as the code does it): the only language check is presence.  A
    missing or empty [language] is answered 400 before any network call by
    both routes; any other tag leads to the first network call: the
    caption fetch of [/api/generate] (given a URL the pattern accepts) and
    the metadata fetch of [/api/subtitles] (given a video id). *)
Theorem language_presence_only_check (env : collaborators) :
  (forall youtubeUrl videoId language,
      truthy language = None ->
      api_generate env youtubeUrl language = ([], JsonMessage 400 msg_missing_generate) /\
      api_subtitles env videoId language = ([], JsonError 400 msg_required)) /\
  (forall url lang videoID,
      lang <> [] -> match_video_id url = Some videoID ->
      hd_error (fst (api_generate env (Some url) (Some lang)))
        = Some (GetSubtitles videoID (lit "en"))) /\
  (forall videoId lang,
      videoId <> [] -> lang <> [] ->
      hd_error (fst (api_subtitles env (Some videoId) (Some lang))) = Some (GetInfo videoId)).
Proof.
  split; [|split].
  - intros youtubeUrl videoId language Hl. unfold api_generate, api_subtitles.
    rewrite Hl. split; [now destruct (truthy youtubeUrl) | now destruct (truthy videoId)].
  - intros url lang videoID Hl Hm.
    destruct url as [|u url]; [discriminate Hm|]. destruct lang as [|a lang]; [easy|].
    unfold api_generate; cbn [truthy]. rewrite Hm.
    destruct (getSubtitles env videoID (lit "en")) as [[[|c cs]|]|]; try reflexivity.
    destruct (displayName env _); [|reflexivity].
    destruct (generateContent env _); reflexivity.
  - intros videoId lang Hv Hl.
    destruct videoId as [|v vs]; [easy|]. destruct lang as [|a ls]; [easy|].
    unfold api_subtitles; cbn [truthy].
    destruct (getInfo env _); [|reflexivity].
    destruct (generateContent env _); reflexivity.
Qed.

Lemma language_presence_only_check_witness :
  (api_generate (demo_env (Some demo_captions) fenced_payload (lit "10")) (Some demo_url) (Some [])
     = ([], JsonMessage 400 msg_missing_generate)) /\
  hd_error (fst (api_generate (demo_env (Some demo_captions) fenced_payload (lit "10"))
                   (Some demo_url) (Some (lit "xx"))))
    = Some (GetSubtitles demo_id (lit "en")) /\
  hd_error (fst (api_subtitles (demo_env None fenced_payload (lit "10"))
                   (Some demo_id) (Some (lit "xx"))))
    = Some (GetInfo demo_id).
Proof.
  split; [|split].
  - apply (proj1 (proj1 (language_presence_only_check
                           (demo_env (Some demo_captions) fenced_payload (lit "10")))
                    (Some demo_url) None (Some []) eq_refl)).
  - apply (proj1 (proj2 (language_presence_only_check
                           (demo_env (Some demo_captions) fenced_payload (lit "10")))));
      vm_compute; first [reflexivity | discriminate].
  - apply (proj2 (proj2 (language_presence_only_check
                           (demo_env None fenced_payload (lit "10")))));
      vm_compute; first [reflexivity | discriminate].
Defined.

(** ** C4 *)

(** C4: every cue list the synthesizer builds, and so every cue list
    [/api/subtitles] answers with, has [start < end] for each cue and
    [end <= next start], indeed [end = next start], for adjacent cues. *)
Theorem synthesize_cues_ordered :
  (forall translatedText videoDuration,
      cues_ordered (snd (synthesize translatedText videoDuration))) /\
  (forall env videoId language,
      match snd (api_subtitles env videoId language) with
      | JsonSubtitles subs => cues_ordered subs
      | _ => True
      end).
Proof.
  assert (H : forall t d, cues_ordered (snd (synthesize t d))).
  { intros t d. apply (cues_from_ordered 0). apply synth_loop_cues_from. }
  split; [exact H|].
  intros env videoId language. unfold api_subtitles.
  destruct (truthy videoId), (truthy language); try exact I.
  destruct (getInfo env _); [|exact I].
  destruct (generateContent env _); [apply H|exact I].
Qed.

(** ** C5 *)

(** C5: with a leading space, [split(/\s+/)] yields an empty first word,
    so the 25 words give 26 array elements and six cues: the first holds
    four words, the last ends at 12 although the duration is 10. *)
Theorem synthesize_leading_space_25 :
  cue_times (snd (synthesize leading_space_25 (Finite 10 1)))
    = [(0, 2); (2, 4); (4, 6); (6, 8); (8, 10); (10, 12)]%Z /\
  option_map Cue.text (hd_error (snd (synthesize leading_space_25 (Finite 10 1))))
    = Some (lit " w1 w2 w3 w4").
Proof. split; vm_compute; reflexivity. Qed.

(** ** C6 *)

(** C6: when the caption scraper returns no array or an empty one,
    [/api/generate] answers 404 after that single call, and no request
    reaches Gemini. *)
Theorem api_generate_no_captions (env : collaborators) (url lang videoID : jsstr) :
  lang <> [] -> match_video_id url = Some videoID ->
  getSubtitles env videoID (lit "en") = Returns None \/
  getSubtitles env videoID (lit "en") = Returns (Some []) ->
  api_generate env (Some url) (Some lang)
    = ([GetSubtitles videoID (lit "en")], JsonMessage 404 msg_no_captions) /\
  (forall p, ~ In (GenerateContent p) (fst (api_generate env (Some url) (Some lang)))).
Proof.
  intros Hl Hm Hs.
  assert (E : api_generate env (Some url) (Some lang)
              = ([GetSubtitles videoID (lit "en")], JsonMessage 404 msg_no_captions)).
  { destruct url as [|u url]; [discriminate Hm|]. destruct lang as [|a lang]; [easy|].
    unfold api_generate; cbn [truthy]. rewrite Hm.
    destruct Hs as [Hs|Hs]; rewrite Hs; reflexivity. }
  split; [exact E|]. intros p. rewrite E. simpl. intros [H|H]; [discriminate H|exact H].
Qed.

Lemma api_generate_no_captions_witness :
  api_generate (demo_env (Some []) fenced_payload (lit "10")) (Some demo_url) (Some (lit "es"))
    = ([GetSubtitles demo_id (lit "en")], JsonMessage 404 msg_no_captions) /\
  (forall p, ~ In (GenerateContent p)
                 (fst (api_generate (demo_env (Some []) fenced_payload (lit "10"))
                         (Some demo_url) (Some (lit "es"))))).
Proof.
  apply (api_generate_no_captions (demo_env (Some []) fenced_payload (lit "10"))
           demo_url (lit "es") demo_id).
  - vm_compute. discriminate.
  - vm_compute. reflexivity.
  - right. reflexivity.
Defined.

(** ** C7 *)

(** C7: whatever Gemini answers, [/api/generate] answers 200 with the
    payload stripped of [```vtt\n] and [```], trimmed, and prefixed by
    ["WEBVTT\n\n"] exactly when it does not start with [WEBVTT]; the body
    starts with [WEBVTT] and holds no [```]. *)
Theorem api_generate_repairs_header_and_fences (env : collaborators)
  (url lang videoID languageName payload : jsstr) (captions : list Caption.t) :
  lang <> [] -> match_video_id url = Some videoID ->
  getSubtitles env videoID (lit "en") = Returns (Some captions) -> captions <> [] ->
  displayName env lang = Returns languageName ->
  generateContent env (VttPrompt languageName (transcript_of captions)) = Returns payload ->
  exists events body,
    api_generate env (Some url) (Some lang) = (events, VttText body) /\
    body = (let v := trim (remove_all fence (remove_all fence_vtt payload)) in
            if starts_with webvtt v then v else webvtt_header ++ v) /\
    starts_with webvtt body = true /\
    ~ infix fence body.
Proof.
  intros Hl Hm Hs Hc Hd Hg.
  rewrite (api_generate_success env url lang videoID languageName payload captions) by assumption.
  eexists _, _. split; [reflexivity|]. split; [reflexivity|].
  split; [apply repair_vtt_starts_webvtt | apply repair_vtt_no_fence].
Qed.

Lemma api_generate_repairs_header_and_fences_witness :
  exists events body,
    api_generate (demo_env (Some demo_captions) fenced_payload (lit "10"))
      (Some demo_url) (Some (lit "es")) = (events, VttText body) /\
    body = (let v := trim (remove_all fence (remove_all fence_vtt fenced_payload)) in
            if starts_with webvtt v then v else webvtt_header ++ v) /\
    starts_with webvtt body = true /\
    ~ infix fence body.
Proof.
  apply (api_generate_repairs_header_and_fences
           (demo_env (Some demo_captions) fenced_payload (lit "10"))
           demo_url (lit "es") demo_id (lit "Spanish") fenced_payload demo_captions);
    vm_compute; first [reflexivity | discriminate].
Defined.

Example repair_vtt_fenced_payload :
  repair_vtt fenced_payload = lines ["WEBVTT"; EmptyString; "00:00:00.000 --> 00:00:02.000"; "Hola"].
Proof. vm_compute. reflexivity. Qed.

(** ** C8 *)

(** C8: the transcript is the first caption's text followed, for each
    further caption in order, by one space and its text, unchanged. *)
Theorem transcript_of_cons (c : Caption.t) (cs : list Caption.t) :
  transcript_of (c :: cs)
    = Caption.text c ++ List.concat (map (fun c' => lit " " ++ Caption.text c') cs).
Proof.
  unfold transcript_of. revert c; induction cs as [|c' cs IH]; intros c.
  - simpl. now rewrite app_nil_r.
  - cbn [map List.concat]. rewrite join_cons_cons.
    specialize (IH c'). cbn [map] in IH. rewrite IH.
    now rewrite !app_assoc.
Qed.

(** ** C10 *)

(** C10: the repair deletes every [```], also inside cue text: no repaired
    document contains [```], and a cue text ["usa ```npm``` aqui"] comes
    out as ["usa npm aqui"]. *)
Theorem repair_vtt_deletes_every_fence :
  (forall vttContent, ~ infix fence (repair_vtt vttContent)) /\
  repair_vtt backtick_cue_payload = backtick_cue_repaired.
Proof.
  split; [apply repair_vtt_no_fence | vm_compute; reflexivity].
Qed.

(** * Further properties of the handlers *)

(** ** The video id extracted from the URL (server.js, lines 28-32) *)







(** ** Which calls a run of [/api/generate] makes *)


(** ** Which calls a run of [/api/subtitles] makes *)


(** ** Requests [/api/generate] refuses before any call *)



(** ** [split(/\s+/)] and the synthesizer keep every character that is not
    whitespace *)

Definition not_ws (c : ascii) : bool := negb (is_ws c).

Lemma filter_not_ws_cons (c : ascii) (s : jsstr) :
  filter not_ws (c :: s) = if is_ws c then filter not_ws s else c :: filter not_ws s.
Proof. cbn [filter]. unfold not_ws at 1. now destruct (is_ws c). Qed.

Lemma split_ws_go_concat (cur : jsstr) (inws : bool) (s : jsstr) :
  List.concat (split_ws_go cur inws s) = rev cur ++ filter not_ws s.
Proof.
  revert cur inws; induction s as [|c s IH]; intros cur inws.
  - simpl. now rewrite !app_nil_r.
  - cbn [split_ws_go]. rewrite filter_not_ws_cons. destruct (is_ws c).
    + destruct inws; [apply IH|]. cbn [List.concat]. now rewrite IH.
    + rewrite IH. simpl. now rewrite <- app_assoc.
Qed.

Lemma split_ws_go_words (cur : jsstr) (inws : bool) (s : jsstr) :
  forallb not_ws cur = true -> Forall (fun w => forallb not_ws w = true) (split_ws_go cur inws s).
Proof.
  revert cur inws; induction s as [|c s IH]; intros cur inws Hc.
  - constructor; [|constructor]. rewrite forallb_forall in *. intros x Hx.
    apply Hc. now apply in_rev.
  - cbn [split_ws_go]. destruct (is_ws c) eqn:E.
    + destruct inws; [now apply IH|]. constructor.
      * rewrite forallb_forall in *. intros x Hx. apply Hc. now apply in_rev.
      * now apply IH.
    + apply IH. simpl. unfold not_ws at 1. now rewrite E, Hc.
Qed.

(** The words [split(/\s+/)] returns hold no whitespace, and put end to end
    they are the text with its whitespace removed. *)
Theorem split_ws_spec (s : jsstr) :
  List.concat (split_ws s) = filter not_ws s /\
  Forall (fun w => forallb not_ws w = true) (split_ws s).
Proof.
  split; [apply split_ws_go_concat | now apply split_ws_go_words].
Qed.

Lemma filter_not_ws_join_space (l : list jsstr) :
  filter not_ws (join (lit " ") l) = filter not_ws (List.concat l).
Proof.
  induction l as [|x l IH]; [reflexivity|].
  destruct l as [|y l].
  - simpl. now rewrite app_nil_r.
  - rewrite join_cons_cons, !filter_app, IH.
    change (List.concat (x :: y :: l)) with (x ++ List.concat (y :: l)).
    rewrite filter_app. reflexivity.
Qed.

Lemma filter_not_ws_all_ws (s : jsstr) : forallb is_ws s = true -> filter not_ws s = [].
Proof.
  induction s as [|c s IH]; [reflexivity|]. simpl. intros H.
  apply Bool.andb_true_iff in H as [Hc Hs]. unfold not_ws at 1. rewrite Hc. now apply IH.
Qed.

Lemma filter_not_ws_idem (s : jsstr) : filter not_ws (filter not_ws s) = filter not_ws s.
Proof.
  induction s as [|c s IH]; [reflexivity|]. simpl.
  destruct (not_ws c) eqn:E; [simpl; now rewrite E, IH | exact IH].
Qed.

Lemma skipn_group (words : list jsstr) (wordIndex : nat) :
  skipn wordIndex words = firstn 5 (skipn wordIndex words) ++ skipn (wordIndex + 5) words.
Proof.
  rewrite <- (firstn_skipn 5 (skipn wordIndex words)) at 1. f_equal.
  rewrite skipn_skipn. f_equal. lia.
Qed.

Lemma synth_loop_chars (fuel : nat) (words : list jsstr) (wordIndex : nat) (t : Z) :
  (List.length words <= wordIndex + 5 * fuel)%nat ->
  filter not_ws (List.concat (map Cue.text (synth_loop fuel words wordIndex t)))
    = filter not_ws (List.concat (skipn wordIndex words)).
Proof.
  revert wordIndex t; induction fuel as [|f IH]; intros wordIndex t Hlen.
  - cbn [synth_loop]. rewrite skipn_all2 by lia. reflexivity.
  - cbn [synth_loop]. destruct (Nat.ltb wordIndex (List.length words)) eqn:Hlt.
    + assert (R : filter not_ws (List.concat (skipn wordIndex words))
                  = filter not_ws (join (lit " ") (firstn 5 (skipn wordIndex words)))
                    ++ filter not_ws (List.concat (skipn (wordIndex + 5) words))).
      { rewrite filter_not_ws_join_space, <- filter_app, <- concat_app, <- skipn_group.
        reflexivity. }
      rewrite R.
      destruct (trim (join (lit " ") (firstn 5 (skipn wordIndex words)))) eqn:E.
      * rewrite (filter_not_ws_all_ws _ (trim_nil_ws _ E)). simpl. apply IH. lia.
      * cbn [map List.concat Cue.text]. rewrite filter_app, IH by lia. reflexivity.
    + apply Nat.ltb_ge in Hlt. rewrite skipn_all2 by exact Hlt. reflexivity.
Qed.

(** The cue texts of [/api/subtitles], put end to end, hold exactly the
    non-whitespace characters of Gemini's translation, in order: grouping
    drops and reorders nothing but whitespace. *)
Theorem synthesize_keeps_text (translatedText : jsstr) (videoDuration : jsnum) :
  filter not_ws (List.concat (map Cue.text (snd (synthesize translatedText videoDuration))))
    = filter not_ws translatedText.
Proof.
  unfold synthesize. cbn [snd]. rewrite synth_loop_chars by lia. cbn [skipn].
  rewrite (proj1 (split_ws_spec translatedText)). apply filter_not_ws_idem.
Qed.

(** ** Each cue is a non-blank group of at most five words *)

Lemma synth_loop_in (fuel : nat) (words : list jsstr) (wordIndex : nat) (t : Z) (c : Cue.t) :
  In c (synth_loop fuel words wordIndex t) ->
  trim (Cue.text c) <> [] /\
  exists k, Cue.text c = join (lit " ") (firstn 5 (skipn (wordIndex + 5 * k) words)).
Proof.
  revert wordIndex t; induction fuel as [|f IH]; intros wordIndex t Hin; [destruct Hin|].
  cbn [synth_loop] in Hin. destruct (Nat.ltb wordIndex (List.length words)); [|destruct Hin].
  destruct (trim (join (lit " ") (firstn 5 (skipn wordIndex words)))) eqn:E.
  - destruct (IH _ _ Hin) as [Ht [k Hk]]. split; [exact Ht|].
    exists (S k). rewrite Hk. do 3 f_equal. lia.
  - destruct Hin as [<-|Hin].
    + cbn [Cue.text]. split; [rewrite E; discriminate|]. exists 0. now rewrite Nat.add_0_r.
    + destruct (IH _ _ Hin) as [Ht [k Hk]]. split; [exact Ht|].
      exists (S k). rewrite Hk. do 3 f_equal. lia.
Qed.

(** Every cue of the list is non-blank after trimming, and its text is the
    words [5k .. 5k+4] of [split(/\s+/)] joined by single spaces. *)
Theorem synthesize_cue_text (translatedText : jsstr) (videoDuration : jsnum) (c : Cue.t) :
  In c (snd (synthesize translatedText videoDuration)) ->
  trim (Cue.text c) <> [] /\
  exists k, Cue.text c = join (lit " ") (firstn 5 (skipn (5 * k) (split_ws translatedText))).
Proof. intros H. exact (synth_loop_in _ _ 0 0 c H). Qed.

Lemma synthesize_cue_text_witness :
  trim (lit "w6 w7") <> [] /\
  exists k, lit "w6 w7"
            = join (lit " ") (firstn 5 (skipn (5 * k) (split_ws (lit "w1 w2 w3 w4 w5 w6 w7")))).
Proof.
  apply (synthesize_cue_text (lit "w1 w2 w3 w4 w5 w6 w7") NaN
           {| Cue.text := lit "w6 w7"; Cue.start := 2; Cue.end_ := 4 |}).
  vm_compute. right. left. reflexivity.
Defined.

(** ** At most one cue per five words *)

Lemma ceil5_step (d : nat) : (1 <= d)%nat -> (1 + (d - 5 + 4) / 5 <= (d + 4) / 5)%nat.
Proof.
  intros Hd. destruct (Nat.le_gt_cases 5 d) as [H5|H5].
  - replace (d + 4)%nat with ((d - 5 + 4) + 1 * 5)%nat by lia.
    rewrite Nat.div_add by lia. lia.
  - destruct d as [|[|[|[|[|d]]]]]; simpl; lia.
Qed.

Lemma synth_loop_length (fuel : nat) (words : list jsstr) (wordIndex : nat) (t : Z) :
  (List.length (synth_loop fuel words wordIndex t) <= (List.length words - wordIndex + 4) / 5)%nat.
Proof.
  revert wordIndex t; induction fuel as [|f IH]; intros wordIndex t; [simpl; lia|].
  cbn [synth_loop]. destruct (Nat.ltb wordIndex (List.length words)) eqn:Hlt; [|simpl; lia].
  apply Nat.ltb_lt in Hlt.
  destruct (trim _); cbn [List.length].
  - specialize (IH (wordIndex + 5)%nat t). etransitivity; [exact IH|].
    apply Nat.Div0.div_le_mono; lia.
  - specialize (IH (wordIndex + 5)%nat (t + 2)%Z).
    replace (List.length words - (wordIndex + 5))%nat
      with (List.length words - wordIndex - 5)%nat in IH by lia.
    pose proof (ceil5_step (List.length words - wordIndex) ltac:(lia)) as K.
    revert IH K.
    generalize ((List.length words - wordIndex - 5 + 4) / 5)%nat,
               ((List.length words - wordIndex + 4) / 5)%nat.
    intros; lia.
Qed.

Lemma cues_from_bounds (t : Z) (l : list Cue.t) (c : Cue.t) :
  cues_from t l -> In c l ->
  (t <= Cue.start c)%Z /\ (Cue.end_ c <= t + 2 * Z.of_nat (List.length l))%Z.
Proof.
  revert t; induction l as [|c' l IH]; intros t H Hin; [destruct Hin|].
  destruct H as [Hs [He Hr]]. cbn [List.length]. rewrite Nat2Z.inj_succ.
  destruct Hin as [<-|Hin]; [lia|].
  destruct (IH _ Hr Hin). lia.
Qed.

(** [/api/subtitles] makes at most one cue per started group of five
    array elements of [split(/\s+/)], and every cue lies in
    [[0, 2 * ceil(n / 5)]] seconds for [n] such elements. *)
Theorem synthesize_cue_bounds (translatedText : jsstr) (videoDuration : jsnum) :
  let n := List.length (split_ws translatedText) in
  (List.length (snd (synthesize translatedText videoDuration)) <= (n + 4) / 5)%nat /\
  (forall c, In c (snd (synthesize translatedText videoDuration)) ->
     (0 <= Cue.start c)%Z /\ (Cue.end_ c <= 2 * Z.of_nat ((n + 4) / 5))%Z).
Proof.
  cbn zeta. unfold synthesize; cbn [snd].
  pose proof (synth_loop_length (List.length (split_ws translatedText))
                (split_ws translatedText) 0 0) as L.
  rewrite Nat.sub_0_r in L. split; [exact L|].
  intros c Hin.
  destruct (cues_from_bounds 0 _ c (synth_loop_cues_from _ _ 0 0) Hin). lia.
Qed.

(** ** Repairing twice *)

Lemma trim_start_edge_ok (s : jsstr) : edge_ok (trim_start s).
Proof.
  induction s as [|c s IH]; [exact I|]. simpl. destruct (is_ws c) eqn:E; [exact IH|exact E].
Qed.

Lemma trim_start_id (s : jsstr) : edge_ok s -> trim_start s = s.
Proof. destruct s as [|c s]; [reflexivity|]. simpl. intros E. now rewrite E. Qed.

Lemma trim_edges (s : jsstr) : edge_ok (trim s) /\ edge_ok (rev (trim s)).
Proof.
  unfold trim. rewrite rev_involutive. split; [|apply trim_start_edge_ok].
  destruct (trim_start_suffix (rev (trim_start s))) as [a Ha].
  remember (trim_start (rev (trim_start s))) as y eqn:Hy.
  destruct y as [|c y]; [exact I|].
  apply (f_equal (@rev ascii)) in Ha. rewrite rev_involutive, rev_app_distr in Ha.
  pose proof (trim_start_edge_ok s) as E. rewrite Ha in E.
  cbn [rev] in *. rewrite <- app_assoc in E.
  destruct (rev y) as [|d r]; exact E.
Qed.

Lemma trim_id (s : jsstr) : edge_ok s -> edge_ok (rev s) -> trim s = s.
Proof.
  intros H1 H2. unfold trim. rewrite (trim_start_id s H1), (trim_start_id _ H2).
  apply rev_involutive.
Qed.

Lemma trim_trim (s : jsstr) : trim (trim s) = trim s.
Proof. destruct (trim_edges s). now apply trim_id. Qed.

Lemma remove_all_fuel_absent (fuel : nat) (pat s : jsstr) :
  ~ infix pat s -> remove_all_fuel fuel pat s = s.
Proof.
  revert s; induction fuel as [|f IH]; intros s H; [reflexivity|].
  destruct s as [|c s]; [reflexivity|]. cbn [remove_all_fuel].
  destruct (starts_with pat (c :: s)) eqn:E.
  - exfalso. apply starts_with_spec in E as [r Hr]. apply H. now exists [], r.
  - rewrite IH; [reflexivity|]. intros [l [r Hr]]. apply H. exists (c :: l), r. simpl. congruence.
Qed.

Lemma clean_vtt_clean (v : jsstr) : ~ infix fence v -> clean_vtt v = trim v.
Proof.
  intros H. unfold clean_vtt, remove_all.
  rewrite (remove_all_fuel_absent _ fence_vtt v).
  - now rewrite remove_all_fuel_absent.
  - intros [l [r Hr]]. apply H. exists l, (lit ("vtt" ++ String nl EmptyString)%string ++ r).
    rewrite Hr. reflexivity.
Qed.

Lemma edge_ok_app (l r : jsstr) : l <> [] -> edge_ok l -> edge_ok (l ++ r).
Proof. destruct l; [congruence|]. intros _ E. exact E. Qed.

(** Running the cleanup of server.js lines 79-82 on its own output changes
    nothing, except when the cleaned payload is empty: the first pass answers
    the bare header ["WEBVTT\n\n"], whose trailing newlines the second pass
    trims away. *)
Theorem repair_vtt_twice (vttContent : jsstr) :
  repair_vtt (repair_vtt vttContent) =
  match clean_vtt vttContent with
  | [] => webvtt
  | _ => repair_vtt vttContent
  end.
Proof.
  assert (Hc : clean_vtt (repair_vtt vttContent) = trim (repair_vtt vttContent))
    by (apply clean_vtt_clean, repair_vtt_no_fence).
  assert (Hv : trim (clean_vtt vttContent) = clean_vtt vttContent)
    by (unfold clean_vtt; apply trim_trim).
  assert (He : edge_ok (clean_vtt vttContent) /\ edge_ok (rev (clean_vtt vttContent)))
    by (unfold clean_vtt; apply trim_edges).
  pose proof (repair_vtt_starts_webvtt vttContent) as Hs.
  unfold repair_vtt at 1. rewrite Hc.
  unfold repair_vtt in *.
  destruct (clean_vtt vttContent) as [|c v] eqn:Hcl; [reflexivity|].
  assert (T : trim (if starts_with webvtt (c :: v) then c :: v else webvtt_header ++ c :: v)
              = (if starts_with webvtt (c :: v) then c :: v else webvtt_header ++ c :: v)).
  { destruct (starts_with webvtt (c :: v)); [exact Hv|].
    destruct He as [_ He2]. apply trim_id; [reflexivity|].
    rewrite rev_app_distr. apply edge_ok_app; [|exact He2].
    cbn [rev]. destruct (rev v); discriminate. }
  rewrite T, Hs. reflexivity.
Qed.

(** The cleanup of server.js lines 79-82 leaves a payload unchanged exactly
    when it holds no [```], has no whitespace at either end and already
    starts with [WEBVTT]: anything else the model returns is rewritten. *)
Theorem repair_vtt_fixed (vttContent : jsstr) :
  repair_vtt vttContent = vttContent <->
  (~ infix fence vttContent /\ edge_ok vttContent /\ edge_ok (rev vttContent) /\
   starts_with webvtt vttContent = true).
Proof.
  split.
  - intros H. rewrite <- H.
    split; [apply repair_vtt_no_fence|]. split; [|split; [|apply repair_vtt_starts_webvtt]].
    + unfold repair_vtt. destruct (starts_with webvtt (clean_vtt vttContent));
        [unfold clean_vtt; apply trim_edges|reflexivity].
    + pose proof (trim_edges (remove_all fence (remove_all fence_vtt vttContent))) as [_ E].
      fold (clean_vtt vttContent) in E.
      unfold repair_vtt in *. destruct (starts_with webvtt (clean_vtt vttContent)); [exact E|].
      destruct (clean_vtt vttContent) as [|c v] eqn:Hcl.
      * exfalso. rewrite app_nil_r in H. rewrite <- H in Hcl. vm_compute in Hcl. discriminate.
      * rewrite rev_app_distr. apply edge_ok_app; [|exact E].
        cbn [rev]. destruct (rev v); discriminate.
  - intros [Hf [H1 [H2 Hs]]]. unfold repair_vtt.
    rewrite (clean_vtt_clean _ Hf), (trim_id _ H1 H2), Hs. reflexivity.
Qed.

Lemma repair_vtt_fixed_witness :
  repair_vtt reversed_cue_payload = reversed_cue_payload.
Proof.
  apply (proj2 (repair_vtt_fixed reversed_cue_payload)).
  split; [|split; [reflexivity|split; reflexivity]].
  intros [l [r Hr]].
  assert (Hb : In backtick reversed_cue_payload)
    by (rewrite Hr; apply in_or_app; right; left; reflexivity).
  vm_compute in Hb. repeat destruct Hb as [Hb|Hb]; try discriminate Hb; exact Hb.
Defined.

(** ** The front ends against the server routes *)

Lemma infix_skipn (n : nat) (p s : jsstr) : infix p (skipn n s) -> infix p s.
Proof.
  intros [l [r Hr]]. exists (firstn n s ++ l), r.
  rewrite <- app_assoc, <- Hr. symmetry. apply firstn_skipn.
Qed.

Lemma take_client1_id_spec (s : jsstr) :
  (exists r, s = take_client1_id s ++ r) /\
  (forall c, In c (take_client1_id s) ->
     c <> "&"%char /\ c <> "?"%char /\ is_ws c = false).
Proof.
  induction s as [|c s [[r Hr] IH]]; [split; [now exists []|intros c []]|]. simpl.
  destruct (Ascii.eqb c "&" || Ascii.eqb c "?" || is_ws c)%bool eqn:E.
  - split; [now exists (c :: s)|intros ? []].
  - apply Bool.orb_false_iff in E as [E E3]. apply Bool.orb_false_iff in E as [E1 E2].
    apply Ascii.eqb_neq in E1. apply Ascii.eqb_neq in E2.
    split; [exists r; simpl; congruence|].
    intros d [<-|Hd]; [auto|exact (IH d Hd)].
Qed.

(** What the first client extracts: a non-empty run of characters other
    than [&], [?] and whitespace, found in the link. *)
Definition client1_id_ok (link id : jsstr) : Prop :=
  id <> [] /\ (forall c, In c id -> c <> "&"%char /\ c <> "?"%char /\ is_ws c = false) /\
  infix id link.

Lemma client1_tail_spec (s id : jsstr) : client1_tail s = Some id -> client1_id_ok s id.
Proof.
  unfold client1_tail.
  assert (K : forall p, (if starts_with p s
            then match take_client1_id (skipn (List.length p) s) with
                 | [] => None | id => Some id end
            else None) = Some id -> client1_id_ok s id).
  { intros p. destruct (starts_with p s); [|discriminate].
    destruct (take_client1_id_spec (skipn (List.length p) s)) as [[r Hr] Hc].
    destruct (take_client1_id (skipn (List.length p) s)) as [|c t] eqn:Ht; [discriminate|].
    intros H; injection H as <-. split; [discriminate|]. split; [exact Hc|].
    apply (infix_skipn (List.length p)). exists [], r. exact Hr. }
  destruct (if starts_with (lit "be.com/watch?v=") s then _ else None) eqn:E.
  - intros H; injection H as <-. exact (K _ E).
  - apply K.
Qed.

Lemma client1_id_ok_skipn (n : nat) (s id : jsstr) :
  client1_id_ok (skipn n s) id -> client1_id_ok s id.
Proof. intros [H1 [H2 H3]]. split; [exact H1|]. split; [exact H2|]. exact (infix_skipn n _ _ H3). Qed.

Lemma client1_at_www_spec (s id : jsstr) : client1_at_www s = Some id -> client1_id_ok s id.
Proof.
  unfold client1_at_www.
  assert (G : forall t, (if starts_with (lit "youtu") t then client1_tail (skipn 5 t) else None)
                        = Some id -> client1_id_ok t id).
  { intros t. destruct (starts_with _ t); [|discriminate].
    intros H. exact (client1_id_ok_skipn 5 _ _ (client1_tail_spec _ _ H)). }
  destruct (starts_with (lit "www.") s).
  - destruct (if starts_with (lit "youtu") (skipn 4 s) then _ else None) eqn:E.
    + intros H; injection H as <-. exact (client1_id_ok_skipn 4 _ _ (G _ E)).
    + apply G.
  - apply G.
Qed.

Lemma client1_at_spec (s id : jsstr) : client1_at s = Some id -> client1_id_ok s id.
Proof.
  unfold client1_at.
  assert (R : (if starts_with (lit "http://") s then client1_at_www (skipn 7 s) else None)
              = Some id \/ client1_at_www s = Some id -> client1_id_ok s id).
  { destruct (starts_with (lit "http://") s).
    - intros [H|H]; [exact (client1_id_ok_skipn 7 _ _ (client1_at_www_spec _ _ H))|].
      exact (client1_at_www_spec _ _ H).
    - intros [H|H]; [discriminate|exact (client1_at_www_spec _ _ H)]. }
  destruct (starts_with (lit "https://") s).
  - destruct (client1_at_www (skipn 8 s)) eqn:E1.
    + intros H; injection H as <-. exact (client1_id_ok_skipn 8 _ _ (client1_at_www_spec _ _ E1)).
    + destruct (if starts_with (lit "http://") s then _ else None) eqn:E2;
        intros H; apply R; [left; congruence|right; exact H].
  - destruct (if starts_with (lit "http://") s then _ else None) eqn:E2;
      intros H; apply R; [left; congruence|right; exact H].
Qed.

Lemma client1_video_id_spec (link id : jsstr) :
  client1_video_id link = Some id -> client1_id_ok link id.
Proof.
  induction link as [|c link IH]; [discriminate|]. cbn [client1_video_id].
  destruct (client1_at (c :: link)) eqn:E.
  - intros H; injection H as <-. exact (client1_at_spec _ _ E).
  - intros H. apply (client1_id_ok_skipn 1). exact (IH H).
Qed.

Lemma client1_languages_nonempty (lang : jsstr) : In lang client1_languages -> lang <> [].
Proof. intros H. simpl in H. repeat destruct H as [<-|H]; try discriminate. destruct H. Qed.

Lemma client2_languages_nonempty (lang : jsstr) : In lang client2_languages -> lang <> [].
Proof. intros H. simpl in H. repeat destruct H as [<-|H]; try discriminate. destruct H. Qed.

(** A request of the first client ([fetchSubtitles], lines 25-53) always
    passes the presence check of [/api/subtitles]: the id it extracts is
    non-empty, holds no [&], [?] or whitespace and occurs in the link, and
    with a language of its dropdown the server's first step is the metadata
    fetch of that id, never the 400 answer. *)
Theorem client1_request_passes_check (env : collaborators) (link id lang : jsstr) :
  client1_video_id link = Some id -> In lang client1_languages ->
  client1_id_ok link id /\
  exists calls resp, api_subtitles env (Some id) (Some lang) = (GetInfo id :: calls, resp) /\
                     resp <> JsonError 400 msg_required.
Proof.
  intros H Hl. pose proof (client1_video_id_spec _ _ H) as Hok. split; [exact Hok|].
  destruct Hok as [Hid _]. pose proof (client1_languages_nonempty _ Hl) as Hln.
  destruct id as [|i id]; [congruence|]. destruct lang as [|a lang]; [congruence|].
  unfold api_subtitles; cbn [truthy].
  destruct (getInfo env (i :: id)); [|eexists; eexists; split; [reflexivity|discriminate]].
  destruct (generateContent env _); eexists; eexists; (split; [reflexivity|discriminate]).
Qed.

Lemma client1_request_passes_check_witness :
  client1_id_ok demo_url demo_id /\
  exists calls resp,
    api_subtitles (demo_env None demo_url (lit "10")) (Some demo_id) (Some (lit "en"))
      = (GetInfo demo_id :: calls, resp) /\ resp <> JsonError 400 msg_required.
Proof.
  apply (client1_request_passes_check _ demo_url demo_id (lit "en")).
  - vm_compute. reflexivity.
  - left. reflexivity.
Defined.

Lemma forallb_starts_with (f : ascii -> bool) (p t : jsstr) :
  starts_with p t = true -> forallb f t = true -> forallb f p = true.
Proof.
  intros E H. apply starts_with_spec in E as [r ->].
  rewrite forallb_app in H. now apply andb_prop in H as [H _].
Qed.

Lemma client2_alt_id_chars (t : jsstr) : forallb id_char t = true -> client2_alt t = None.
Proof.
  intros H. unfold client2_alt. cbn [List.fold_right].
  assert (L : forall p, forallb id_char p = false ->
              (if starts_with p t then Some (skipn (List.length p) t) else None) = None).
  { intros p Hp. destruct (starts_with p t) eqn:E; [|reflexivity].
    rewrite (forallb_starts_with _ _ _ E H) in Hp. discriminate. }
  rewrite !L by reflexivity.
  destruct (starts_with (lit "u/") t) eqn:Eu.
  { pose proof (forallb_starts_with _ _ _ Eu H) as F. vm_compute in F. discriminate F. }
  destruct (starts_with (lit "youtu") t) eqn:Ey; [|reflexivity].
  apply starts_with_spec in Ey as [r ->].
  replace (skipn 5 (lit "youtu" ++ r)) with r by reflexivity.
  destruct r as [|x r]; [reflexivity|].
  destruct (negb (is_line_terminator x) && starts_with (lit "be/") r)%bool eqn:Eb; [|reflexivity].
  apply andb_prop in Eb as [_ Eb]. apply starts_with_spec in Eb as [r' ->].
  rewrite forallb_app in H. apply andb_prop in H as [_ H]. cbn [forallb] in H.
  apply andb_prop in H as [_ H]. discriminate H.
Qed.

Lemma id_char_neq (c d : ascii) : id_char c = true -> id_char d = false -> Ascii.eqb c d = false.
Proof.
  intros Hc Hd. destruct (Ascii.eqb c d) eqn:E; [|reflexivity].
  apply Ascii.eqb_eq in E. subst. congruence.
Qed.

Lemma client2_match_id_chars (t : jsstr) : forallb id_char t = true -> client2_match t = None.
Proof.
  induction t as [|c t IH]; [reflexivity|]. intros H.
  pose proof (client2_alt_id_chars _ H) as A.
  cbn [forallb] in H. apply andb_prop in H as [_ H].
  cbn [client2_match]. rewrite A, (IH H).
  destruct (is_line_terminator c); reflexivity.
Qed.

Lemma take_client2_id_id_chars (t : jsstr) : forallb id_char t = true -> take_client2_id t = t.
Proof.
  induction t as [|c t IH]; [reflexivity|]. cbn [forallb]. intros H.
  apply andb_prop in H as [Hc H]. cbn [take_client2_id].
  rewrite !(id_char_neq c) by (exact Hc || reflexivity). cbn. now rewrite IH.
Qed.

Lemma take_id_id_chars (t : jsstr) : forallb id_char t = true -> take_id t = t.
Proof.
  induction t as [|c t IH]; [reflexivity|]. cbn [forallb]. intros H.
  apply andb_prop in H as [Hc H]. cbn [take_id].
  rewrite !(id_char_neq c) by (exact Hc || reflexivity). cbn. now rewrite IH.
Qed.

Lemma match_at_id_chars (t : jsstr) : forallb id_char t = true -> match_at t = None.
Proof.
  intros H. unfold match_at. cbn zeta.
  assert (L : forall p, forallb id_char p = false ->
              (if starts_with p t
               then match take_id (skipn (List.length p) t) with [] => None | id => Some id end
               else None) = None).
  { intros p Hp. destruct (starts_with p t) eqn:E; [|reflexivity].
    rewrite (forallb_starts_with _ _ _ E H) in Hp. discriminate. }
  rewrite !L by reflexivity. reflexivity.
Qed.

Lemma match_video_id_id_chars (t : jsstr) : forallb id_char t = true -> match_video_id t = None.
Proof.
  induction t as [|c t IH]; [reflexivity|]. intros H.
  cbn [match_video_id]. rewrite (match_at_id_chars _ H).
  cbn [forallb] in H. apply andb_prop in H as [_ H]. exact (IH H).
Qed.

Lemma client2_match_cons (c : ascii) (t : jsstr) :
  is_line_terminator c = false ->
  client2_match (c :: t) =
  match client2_match t with
  | Some g => Some g
  | None => option_map take_client2_id (client2_alt (c :: t))
  end.
Proof. intros H. cbn [client2_match]. now rewrite H. Qed.

Lemma match_video_id_cons (c : ascii) (t : jsstr) :
  match_video_id (c :: t) =
  match match_at (c :: t) with
  | Some id => Some id
  | None => match_video_id t
  end.
Proof. reflexivity. Qed.

(** The second client accepts an embed link ([https://www.youtube.com/embed/]
    followed by an 11-character video id) and posts it unchanged as
    [youtubeUrl] (lines 201-227), but [/api/generate] only recognises
    [v=] and [youtu.be/] links (server.js line 28): with any language of the
    dropdown the request is answered 400 'Invalid YouTube URL format.' before
    any network call. *)
Theorem client2_embed_url_rejected (env : collaborators) (id lang : jsstr) :
  forallb id_char id = true -> List.length id = 11%nat -> In lang client2_languages ->
  getYouTubeID (embed_prefix ++ id) = Some id /\
  api_generate env (Some (embed_prefix ++ id)) (Some lang) = ([], JsonMessage 400 msg_invalid_url).
Proof.
  intros Hid Hlen Hl. split.
  - unfold getYouTubeID.
    replace (client2_match (embed_prefix ++ id)) with (Some id).
    + rewrite Hlen. reflexivity.
    + symmetry. unfold embed_prefix. cbn [lit list_ascii_of_string app].
      rewrite !client2_match_cons by reflexivity.
      rewrite (client2_match_id_chars _ Hid).
      cbv -[take_client2_id]. now rewrite (take_client2_id_id_chars _ Hid).
  - pose proof (client2_languages_nonempty _ Hl) as Hln.
    destruct lang as [|a lang]; [congruence|].
    assert (Hs : match_video_id (embed_prefix ++ id) = None).
    { unfold embed_prefix. cbn [lit list_ascii_of_string app].
      rewrite !match_video_id_cons. rewrite (match_video_id_id_chars _ Hid).
      vm_compute. reflexivity. }
    unfold embed_prefix in *. cbn [lit list_ascii_of_string app] in *.
    unfold api_generate. cbn [truthy]. rewrite Hs. reflexivity.
Qed.

Lemma client2_embed_url_rejected_witness :
  getYouTubeID (embed_prefix ++ demo_id) = Some demo_id /\
  api_generate (demo_env (Some demo_captions) fenced_payload (lit "10"))
    (Some (embed_prefix ++ demo_id)) (Some (lit "es")) = ([], JsonMessage 400 msg_invalid_url).
Proof.
  apply client2_embed_url_rejected; [vm_compute; reflexivity|reflexivity|left; reflexivity].
Defined.

(** On the canonical watch link ([https://www.youtube.com/watch?v=]
    followed by an 11-character video id) the two extractions agree: the id
    the second client embeds in its player is the id whose captions
    [/api/generate] fetches first. *)
Theorem client2_watch_url_agrees (env : collaborators) (id lang : jsstr) :
  forallb id_char id = true -> List.length id = 11%nat -> lang <> [] ->
  getYouTubeID (watch_prefix ++ id) = Some id /\
  match_video_id (watch_prefix ++ id) = Some id /\
  exists calls resp, api_generate env (Some (watch_prefix ++ id)) (Some lang)
                     = (GetSubtitles id (lit "en") :: calls, resp).
Proof.
  intros Hid Hlen Hln.
  assert (Hs : match_video_id (watch_prefix ++ id) = Some id).
  { unfold watch_prefix. cbn [lit list_ascii_of_string app].
    rewrite !match_video_id_cons.
    cbv -[take_id match_video_id]. rewrite (take_id_id_chars _ Hid).
    destruct id as [|i id]; [discriminate Hlen|]. reflexivity. }
  split; [|split; [exact Hs|]].
  - unfold getYouTubeID.
    replace (client2_match (watch_prefix ++ id)) with (Some id).
    + rewrite Hlen. reflexivity.
    + symmetry. unfold watch_prefix. cbn [lit list_ascii_of_string app].
      rewrite !client2_match_cons by reflexivity.
      rewrite (client2_match_id_chars _ Hid).
      cbv -[take_client2_id]. now rewrite (take_client2_id_id_chars _ Hid).
  - destruct lang as [|a lang]; [congruence|].
    unfold watch_prefix in *. cbn [lit list_ascii_of_string app] in *.
    unfold api_generate. cbn [truthy]. rewrite Hs.
    destruct (getSubtitles env id (lit "en")) as [[[|c cs]|]|];
      try (eexists; eexists; reflexivity).
    destruct (displayName env _); [|eexists; eexists; reflexivity].
    destruct (generateContent env _); eexists; eexists; reflexivity.
Qed.

Lemma client2_watch_url_agrees_witness :
  getYouTubeID (watch_prefix ++ demo_id) = Some demo_id /\
  match_video_id (watch_prefix ++ demo_id) = Some demo_id /\
  exists calls resp,
    api_generate (demo_env (Some demo_captions) fenced_payload (lit "10"))
      (Some (watch_prefix ++ demo_id)) (Some (lit "es"))
    = (GetSubtitles demo_id (lit "en") :: calls, resp).
Proof.
  apply client2_watch_url_agrees; [vm_compute; reflexivity|reflexivity|discriminate].
Defined.

(** ** Cue times of [/api/subtitles] *)

Lemma cues_from_nth (t : Z) (l : list Cue.t) (i : nat) (c : Cue.t) :
  cues_from t l -> nth_error l i = Some c ->
  Cue.start c = (t + 2 * Z.of_nat i)%Z /\ Cue.end_ c = (t + 2 * Z.of_nat i + 2)%Z.
Proof.
  revert t i; induction l as [|c' l IH]; intros t i H Hn; [destruct i; discriminate|].
  destruct H as [Hs [He Hr]]. destruct i as [|i]; cbn [nth_error] in Hn.
  - injection Hn as <-. lia.
  - destruct (IH _ _ Hr Hn) as [H1 H2]. rewrite Nat2Z.inj_succ. lia.
Qed.

(** The cue at index [i] of the answer of [/api/subtitles] runs from [2 * i]
    to [2 * i + 2] seconds, whatever the video duration and whatever groups
    were skipped as blank: the times count emitted cues, not words. *)
Theorem synthesize_cue_times (translatedText : jsstr) (videoDuration : jsnum)
  (i : nat) (c : Cue.t) :
  nth_error (snd (synthesize translatedText videoDuration)) i = Some c ->
  Cue.start c = (2 * Z.of_nat i)%Z /\ Cue.end_ c = (2 * Z.of_nat i + 2)%Z.
Proof.
  intros H. unfold synthesize in H; cbn [snd] in H.
  destruct (cues_from_nth _ _ _ _ (synth_loop_cues_from _ _ 0 0) H). lia.
Qed.

Lemma synthesize_cue_times_witness :
  Cue.start {| Cue.text := lit "w6 w7"; Cue.start := 2; Cue.end_ := 4 |} = (2 * Z.of_nat 1)%Z /\
  Cue.end_ {| Cue.text := lit "w6 w7"; Cue.start := 2; Cue.end_ := 4 |} = (2 * Z.of_nat 1 + 2)%Z.
Proof.
  apply (synthesize_cue_times (lit "w1 w2 w3 w4 w5 w6 w7") (Finite 7 1) 1). vm_compute. reflexivity.
Defined.

Lemma synthesize_cue_bounds_witness :
  (List.length (snd (synthesize leading_space_25 (Finite 26 10)))
     <= (List.length (split_ws leading_space_25) + 4) / 5)%nat /\
  (forall c, In c (snd (synthesize leading_space_25 (Finite 26 10))) ->
     (0 <= Cue.start c)%Z /\
     (Cue.end_ c <= 2 * Z.of_nat ((List.length (split_ws leading_space_25) + 4) / 5))%Z).
Proof. exact (synthesize_cue_bounds leading_space_25 (Finite 26 10)). Defined.
